(** * IronDomeApp: interception decision-and-control core

    Shallow embedding of the control-law stack, the projectile estimator,
    the target selector, the interception state machine and the projectile
    generator of IronDomeApp.hpp / projectile/ProjectileGenerator.hpp.

    The repository ships only the two headers; the member functions they
    declare (fullTaskSpaceControl, applyTorqueLimits, stateMachine,
    ProjectileGenerator::update, ...) have no body in the sources.  Each
    definition that stands for such a body says so in its doc comment
    ("Modelled from the spec:") and follows the specification's words.
    Eigen doubles are modelled as real numbers, Eigen vectors as lists of
    reals, std::map as stdpp's gmap. *)

From Stdlib Require Import Reals Lra List Bool ClassicalEpsilon.
From stdpp Require Import base gmap.
Import ListNotations.

Local Open Scope R_scope.

(* ------------------------------------------------------------------ *)
(** ** Vectors (Eigen::VectorXd / Vector3d) *)

Definition vec := list R.
Definition mat := list (list R).

(** Component-wise binary operation, as Eigen's coefficient-wise
    operators on vectors of equal size. *)
Fixpoint vzip (f : R -> R -> R) (u w : vec) : vec :=
  match u, w with
  | a :: u', b :: w' => f a b :: vzip f u' w'
  | _, _ => []
  end.

Definition vadd := vzip Rplus.
Definition vsub := vzip Rminus.
Definition vcwise := vzip Rmult.
Definition vscale (c : R) (u : vec) : vec := map (Rmult c) u.
Definition zeros (n : nat) : vec := repeat 0 n.

Definition dot (u w : vec) : R := fold_right Rplus 0 (vcwise u w).
Definition norm (u : vec) : R := sqrt (dot u u).

(** [J.transpose() * F] for a Jacobian stored as its rows (6 x dof):
    the sum of the rows of J weighted by the entries of F. *)
Definition jt_mul (dof : nat) (J : mat) (F : vec) : vec :=
  fold_right (fun rf acc => vadd (vscale (snd rf) (fst rf)) acc)
             (zeros dof) (combine J F).

(* ------------------------------------------------------------------ *)
(** ** Data model (the member variables of IronDomeApp) *)

Record RobotState := mkRobotState {
  q : vec; dq : vec;                 (* generalized position / velocity *)
  x_c : vec; v : vec;                (* end-effector position, linear velocity *)
  R_c : mat; omega : vec;            (* end-effector rotation, angular velocity *)
  J : mat;                           (* Jacobian, 6 x dof, by rows *)
  g_q : vec;                         (* generalized gravity force *)
  tau : vec                          (* last commanded generalized force *)
}.

Record DesiredSetpoint := mkDesiredSetpoint {
  x_d : vec; R_d : mat; q_d : vec
}.

Record ControlGains := mkControlGains {
  kp_p : R; kv_p : R; kp_r : R; kv_r : R;
  kp_q : vec; kv_q : vec;
  kv_friction : R;
  tau_limit : vec;                   (* per-joint torque limit *)
  q_min : vec; q_max : vec;          (* joint position limits *)
  jlim_band : R;                     (* width of the repulsive zone *)
  kp_jlim : R;                       (* gain of the repulsive potential *)
  q_sat : vec;                       (* joint-limit saturation *)
  max_step : R                       (* incremental control max step *)
}.

Inductive ControlMode :=
| FullTaskSpace | IncrementalTaskSpace | ResolvedMotionRate | JointSpace.

Section ControlLaw.

(** The orientation error dphi between the current and desired rotation
    (axis-angle / log-map of the relative rotation) is computed from the
    two rotation matrices; every statement below holds for any such map. *)
Variable orientation_error : mat -> mat -> vec.

Variable dof : nat.

(** Task-space PD law: F_p = -kp_p dx - kv_p v, F_r = -kp_r dphi - kv_r omega,
    torque = J^T [F_p; F_r]. *)
Definition task_space_torque (rs : RobotState) (g : ControlGains)
    (dx dphi : vec) : vec :=
  let F_p := vsub (vscale (- kp_p g) dx) (vscale (kv_p g) (v rs)) in
  let F_r := vsub (vscale (- kp_r g) dphi) (vscale (kv_r g) (omega rs)) in
  jt_mul dof (J rs) (F_p ++ F_r).

(** Clamp an error vector to a maximum magnitude [s]:
    [if (e.norm() > s) e = e.normalized() * s]. *)
Definition clamp_step (s : R) (e : vec) : vec :=
  if Rlt_dec s (norm e) then vscale (s / norm e) e else e.

(** Modelled from the spec: body of fullTaskSpaceControl. *)
Definition fullTaskSpaceControl (rs : RobotState) (sp : DesiredSetpoint)
    (g : ControlGains) : vec :=
  let dx := vsub (x_c rs) (x_d sp) in
  let dphi := orientation_error (R_c rs) (R_d sp) in
  task_space_torque rs g dx dphi.

(** Modelled from the spec: body of incrementalTaskSpaceControl. *)
Definition incrementalTaskSpaceControl (rs : RobotState) (sp : DesiredSetpoint)
    (g : ControlGains) : vec :=
  let dx := clamp_step (max_step g) (vsub (x_c rs) (x_d sp)) in
  let dphi := clamp_step (max_step g) (orientation_error (R_c rs) (R_d sp)) in
  task_space_torque rs g dx dphi.

(** Modelled from the spec: body of resolvedMotionRateControl. *)
Definition resolvedMotionRateControl (rs : RobotState) (sp : DesiredSetpoint)
    (g : ControlGains) : vec :=
  let dx := vsub (x_c rs) (x_d sp) in
  let dphi := orientation_error (R_c rs) (R_d sp) in
  let q_diff := jt_mul dof (J rs) (dx ++ dphi) in
  vsub (vzip (fun k e => - k * e) (kp_q g) q_diff) (vcwise (kv_q g) (dq rs)).

(** Modelled from the spec: body of jointSpaceControl,
    tau = kp_q (q_d - q) - kv_q dq. *)
Definition jointSpaceControl (rs : RobotState) (sp : DesiredSetpoint)
    (g : ControlGains) : vec :=
  vsub (vcwise (kp_q g) (vsub (q_d sp) (q rs))) (vcwise (kv_q g) (dq rs)).

Definition base_torque (m : ControlMode) : RobotState -> DesiredSetpoint ->
    ControlGains -> vec :=
  match m with
  | FullTaskSpace => fullTaskSpaceControl
  | IncrementalTaskSpace => incrementalTaskSpaceControl
  | ResolvedMotionRate => resolvedMotionRateControl
  | JointSpace => jointSpaceControl
  end.

(** Modelled from the spec: applyGravityCompensation, tau += g_q. *)
Definition applyGravityCompensation (rs : RobotState) (t : vec) : vec :=
  vadd t (g_q rs).

(** Modelled from the spec: applyJointFriction, tau -= kv_friction dq. *)
Definition applyJointFriction (rs : RobotState) (g : ControlGains) (t : vec) : vec :=
  vsub t (vscale (kv_friction g) (dq rs)).

(** Repulsive force at distance [d] from a joint limit: the saturation
    value at or beyond the bound, a 1/d potential clamped by the
    saturation inside the band, zero in the interior. *)
Definition repulsion (band k sat d : R) : R :=
  if Rle_dec d 0 then sat
  else if Rlt_dec d band then Rmin sat (k * (/ d - / band))
  else 0.

Definition joint_limit_torque (band k qj lo hi sat : R) : R :=
  repulsion band k sat (qj - lo) - repulsion band k sat (hi - qj).

Fixpoint jlim_vec (band k : R) (qs los his sats : vec) : vec :=
  match qs, los, his, sats with
  | qj :: qs', lo :: los', hi :: his', s :: sats' =>
      joint_limit_torque band k qj lo hi s :: jlim_vec band k qs' los' his' sats'
  | _, _, _, _ => []
  end.

(** Modelled from the spec: applyJointLimitPotential, tau += tau_jlim. *)
Definition applyJointLimitPotential (rs : RobotState) (g : ControlGains)
    (t : vec) : vec :=
  vadd t (jlim_vec (jlim_band g) (kp_jlim g) (q rs) (q_min g) (q_max g) (q_sat g)).

Definition clamp (lim x : R) : R := Rmax (- lim) (Rmin lim x).

(** Modelled from the spec: applyTorqueLimits, each joint's torque
    saturated independently at its limit. *)
Definition applyTorqueLimits (g : ControlGains) (t : vec) : vec :=
  vzip clamp (tau_limit g) t.

(** One control cycle's torque: base strategy, then the compensation and
    limiting stages in order. *)
Definition computeTorque (m : ControlMode) (rs : RobotState)
    (sp : DesiredSetpoint) (g : ControlGains) : vec :=
  applyTorqueLimits g
    (applyJointLimitPotential rs g
      (applyJointFriction rs g
        (applyGravityCompensation rs
          (base_torque m rs sp g)))).

(** A robot state, setpoint and gains whose sizes agree with [dof] and
    whose limits are non-negative. *)
Definition valid_config (rs : RobotState) (sp : DesiredSetpoint)
    (g : ControlGains) : Prop :=
  length (q rs) = dof /\ length (dq rs) = dof /\ length (g_q rs) = dof /\
  Forall (fun row => length row = dof) (J rs) /\
  length (q_d sp) = dof /\
  length (kp_q g) = dof /\ length (kv_q g) = dof /\
  length (tau_limit g) = dof /\ Forall (fun l => 0 <= l) (tau_limit g) /\
  length (q_min g) = dof /\ length (q_max g) = dof /\ length (q_sat g) = dof.

End ControlLaw.

(* ------------------------------------------------------------------ *)
(** ** The control cycle as member functions of IronDomeApp

    The control functions of IronDomeApp.hpp are [void] member functions
    without arguments: each one reads the object's members and writes its
    results back into members (dx, dphi, F_p, F_r, F, q_diff, tau_jlim,
    x_inc, tau).  [Members] is the part of the object they read and write;
    each function below is a state transformer on it, reading every
    intermediate result back from the member it was stored in. *)

Record Members := mkMembers {
  mb_robot : RobotState;             (* q, dq, x_c, v, R_c, omega, J, g_q, tau *)
  mb_sp : DesiredSetpoint;           (* x_d, R_d, q_d *)
  mb_gains : ControlGains;
  mb_mode : ControlMode;
  mb_dx : vec; mb_dphi : vec;        (* task-space errors *)
  mb_F_p : vec; mb_F_r : vec; mb_F : vec;  (* task-space forces *)
  mb_q_diff : vec;                   (* joint-space error *)
  mb_tau_jlim : vec;                 (* joint-limit restoring torque *)
  mb_x_inc : vec                     (* incremental position towards goal *)
}.

Definition set_tau (t : vec) (st : Members) : Members :=
  let r := mb_robot st in
  mkMembers (mkRobotState (q r) (dq r) (x_c r) (v r) (R_c r) (omega r) (J r) (g_q r) t)
    (mb_sp st) (mb_gains st) (mb_mode st) (mb_dx st) (mb_dphi st) (mb_F_p st)
    (mb_F_r st) (mb_F st) (mb_q_diff st) (mb_tau_jlim st) (mb_x_inc st).

Definition set_dx (x : vec) (st : Members) : Members :=
  mkMembers (mb_robot st) (mb_sp st) (mb_gains st) (mb_mode st) x (mb_dphi st)
    (mb_F_p st) (mb_F_r st) (mb_F st) (mb_q_diff st) (mb_tau_jlim st) (mb_x_inc st).

Definition set_dphi (x : vec) (st : Members) : Members :=
  mkMembers (mb_robot st) (mb_sp st) (mb_gains st) (mb_mode st) (mb_dx st) x
    (mb_F_p st) (mb_F_r st) (mb_F st) (mb_q_diff st) (mb_tau_jlim st) (mb_x_inc st).

Definition set_F_p (x : vec) (st : Members) : Members :=
  mkMembers (mb_robot st) (mb_sp st) (mb_gains st) (mb_mode st) (mb_dx st) (mb_dphi st)
    x (mb_F_r st) (mb_F st) (mb_q_diff st) (mb_tau_jlim st) (mb_x_inc st).

Definition set_F_r (x : vec) (st : Members) : Members :=
  mkMembers (mb_robot st) (mb_sp st) (mb_gains st) (mb_mode st) (mb_dx st) (mb_dphi st)
    (mb_F_p st) x (mb_F st) (mb_q_diff st) (mb_tau_jlim st) (mb_x_inc st).

Definition set_F (x : vec) (st : Members) : Members :=
  mkMembers (mb_robot st) (mb_sp st) (mb_gains st) (mb_mode st) (mb_dx st) (mb_dphi st)
    (mb_F_p st) (mb_F_r st) x (mb_q_diff st) (mb_tau_jlim st) (mb_x_inc st).

Definition set_q_diff (x : vec) (st : Members) : Members :=
  mkMembers (mb_robot st) (mb_sp st) (mb_gains st) (mb_mode st) (mb_dx st) (mb_dphi st)
    (mb_F_p st) (mb_F_r st) (mb_F st) x (mb_tau_jlim st) (mb_x_inc st).

Definition set_tau_jlim (x : vec) (st : Members) : Members :=
  mkMembers (mb_robot st) (mb_sp st) (mb_gains st) (mb_mode st) (mb_dx st) (mb_dphi st)
    (mb_F_p st) (mb_F_r st) (mb_F st) (mb_q_diff st) x (mb_x_inc st).

Definition set_x_inc (x : vec) (st : Members) : Members :=
  mkMembers (mb_robot st) (mb_sp st) (mb_gains st) (mb_mode st) (mb_dx st) (mb_dphi st)
    (mb_F_p st) (mb_F_r st) (mb_F st) (mb_q_diff st) (mb_tau_jlim st) x.

Section MemberControl.

Variable orientation_error : mat -> mat -> vec.
Variable dof : nat.

(** dx = x_c - x_d; dphi from R_c, R_d. *)
Definition compute_errors (st : Members) : Members :=
  let r := mb_robot st in
  let st1 := set_dx (vsub (x_c r) (x_d (mb_sp st))) st in
  set_dphi (orientation_error (R_c r) (R_d (mb_sp st))) st1.

(** F_p = -kp_p dx - kv_p v; F_r = -kp_r dphi - kv_r omega; F = [F_p; F_r];
    tau = J^T F, each read back from the member just written. *)
Definition task_force (st : Members) : Members :=
  let r := mb_robot st in
  let g := mb_gains st in
  let st1 := set_F_p (vsub (vscale (- kp_p g) (mb_dx st)) (vscale (kv_p g) (v r))) st in
  let st2 := set_F_r (vsub (vscale (- kp_r g) (mb_dphi st1)) (vscale (kv_r g) (omega r))) st1 in
  let st3 := set_F (mb_F_p st2 ++ mb_F_r st2) st2 in
  set_tau (jt_mul dof (J r) (mb_F st3)) st3.

(** Modelled from the spec: fullTaskSpaceControl as a member function. *)
Definition fullTaskSpaceControl_m (st : Members) : Members :=
  task_force (compute_errors st).

(** Modelled from the spec: incrementalTaskSpaceControl as a member
    function; dx and dphi are clamped in place, x_inc is the position one
    increment from x_c towards the goal. *)
Definition incrementalTaskSpaceControl_m (st : Members) : Members :=
  let st1 := compute_errors st in
  let s := max_step (mb_gains st1) in
  let st2 := set_dx (clamp_step s (mb_dx st1)) st1 in
  let st3 := set_dphi (clamp_step s (mb_dphi st2)) st2 in
  let st4 := set_x_inc (vsub (x_c (mb_robot st3)) (mb_dx st3)) st3 in
  task_force st4.

(** Modelled from the spec: resolvedMotionRateControl as a member function. *)
Definition resolvedMotionRateControl_m (st : Members) : Members :=
  let st1 := compute_errors st in
  let st2 := set_q_diff (jt_mul dof (J (mb_robot st1)) (mb_dx st1 ++ mb_dphi st1)) st1 in
  let g := mb_gains st2 in
  set_tau (vsub (vzip (fun k e => - k * e) (kp_q g) (mb_q_diff st2))
                (vcwise (kv_q g) (dq (mb_robot st2)))) st2.

(** Modelled from the spec: jointSpaceControl as a member function. *)
Definition jointSpaceControl_m (st : Members) : Members :=
  let st1 := set_q_diff (vsub (q_d (mb_sp st)) (q (mb_robot st))) st in
  let g := mb_gains st1 in
  set_tau (vsub (vcwise (kp_q g) (mb_q_diff st1)) (vcwise (kv_q g) (dq (mb_robot st1)))) st1.

Definition base_torque_m (st : Members) : Members :=
  match mb_mode st with
  | FullTaskSpace => fullTaskSpaceControl_m st
  | IncrementalTaskSpace => incrementalTaskSpaceControl_m st
  | ResolvedMotionRate => resolvedMotionRateControl_m st
  | JointSpace => jointSpaceControl_m st
  end.

(** Modelled from the spec: applyGravityCompensation, tau += g_q. *)
Definition applyGravityCompensation_m (st : Members) : Members :=
  set_tau (vadd (tau (mb_robot st)) (g_q (mb_robot st))) st.

(** Modelled from the spec: applyJointFriction, tau -= kv_friction dq. *)
Definition applyJointFriction_m (st : Members) : Members :=
  set_tau (vsub (tau (mb_robot st))
                (vscale (kv_friction (mb_gains st)) (dq (mb_robot st)))) st.

(** Modelled from the spec: applyJointLimitPotential, tau_jlim from the
    repulsive potential, then tau += tau_jlim. *)
Definition applyJointLimitPotential_m (st : Members) : Members :=
  let g := mb_gains st in
  let st1 := set_tau_jlim (jlim_vec (jlim_band g) (kp_jlim g) (q (mb_robot st))
                             (q_min g) (q_max g) (q_sat g)) st in
  set_tau (vadd (tau (mb_robot st1)) (mb_tau_jlim st1)) st1.

(** Modelled from the spec: applyTorqueLimits, tau clamped per joint. *)
Definition applyTorqueLimits_m (st : Members) : Members :=
  set_tau (vzip clamp (tau_limit (mb_gains st)) (tau (mb_robot st))) st.

(** One control cycle's torque computation on the object's members. *)
Definition control_cycle_m (st : Members) : Members :=
  applyTorqueLimits_m (applyJointLimitPotential_m (applyJointFriction_m
    (applyGravityCompensation_m (base_torque_m st)))).

End MemberControl.

(** Two member states agree on the inputs of the torque computation:
    robot state apart from the commanded torque, setpoint, gains, mode. *)
Definition same_inputs (a b : Members) : Prop :=
  let ra := mb_robot a in let rb := mb_robot b in
  q ra = q rb /\ dq ra = dq rb /\ x_c ra = x_c rb /\ v ra = v rb /\
  R_c ra = R_c rb /\ omega ra = omega rb /\ J ra = J rb /\ g_q ra = g_q rb /\
  mb_sp a = mb_sp b /\ mb_gains a = mb_gains b /\ mb_mode a = mb_mode b.

Definition Rleb (a b : R) : bool := if Rle_dec a b then true else false.
Definition Rltb (a b : R) : bool := if Rlt_dec a b then true else false.

(* ------------------------------------------------------------------ *)
(** ** Projectile estimator (ProjectileManager, projectile.hpp) *)

(** Gravity, the fixed acceleration of the ballistic model. *)
Definition gravity : vec := [0; 0; -9.8].

Record Estimate := mkEstimate {
  t0 : R; p0 : vec; v0 : vec; a0 : vec
}.

(** A tracked projectile: identifier, measurement history in arrival
    order (timestamp, measured position), time of the last measurement. *)
Record Projectile := mkProjectile {
  pid : Z;
  history : list (R * vec);
  last_time : R
}.

(** p(t) = p0 + v0 (t - t0) + 1/2 a0 (t - t0)^2 *)
Definition predict (e : Estimate) (t : R) : vec :=
  let d := t - t0 e in
  vadd (vadd (p0 e) (vscale d (v0 e))) (vscale (/ 2 * d * d) (a0 e)).

Definition pos_z (e : Estimate) (t : R) : R := nth 2 (predict e t) 0.
Definition vel_z (e : Estimate) (t : R) : R :=
  nth 2 (v0 e) 0 + nth 2 (a0 e) 0 * (t - t0 e).

Definition sumR (l : list R) : R := fold_right Rplus 0 l.

(** Least-squares line y = p + v tau through the points (tau_i, y_i),
    given the common denominator n S_tt - S_t^2. *)
Definition ls_axis (n den : R) (taus ys : list R) : R * R :=
  let St := sumR taus in
  let Sy := sumR ys in
  let Sty := sumR (vcwise taus ys) in
  let vel := (n * Sty - St * Sy) / den in
  ((Sy - vel * St) / n, vel).

(** Modelled from the spec: the least-squares refit of p0, v0 (t0 the
    first sample's timestamp, a0 fixed to gravity) over the accumulated
    history. Fewer than two samples, or samples that all share one
    timestamp, give no estimate. *)
Definition fit (h : list (R * vec)) : option Estimate :=
  match h with
  | [] => None
  | (ts, _) :: _ =>
      if (length h <? 2)%nat then None else
      let taus := map (fun m => fst m - ts) h in
      let n := INR (length h) in
      let den := n * sumR (vcwise taus taus) - sumR taus * sumR taus in
      if Req_EM_T den 0 then None else
      let axis k :=
        ls_axis n den taus
          (map (fun m => nth k (snd m) 0
                         - / 2 * nth k gravity 0 * (fst m - ts) * (fst m - ts)) h) in
      Some (mkEstimate ts
              [fst (axis 0%nat); fst (axis 1%nat); fst (axis 2%nat)]
              [snd (axis 0%nat); snd (axis 1%nat); snd (axis 2%nat)]
              gravity)
  end.

Section Estimator.

Variable timeout : R.

(** Modelled from the spec: expiry. The predicted trajectory has crossed
    the ground plane (z <= 0 now), or no measurement within [timeout]. *)
Definition expired (now : R) (p : Projectile) : bool :=
  match fit (history p) with
  | Some e => Rleb (pos_z e now) 0
  | None => false
  end
  || Rltb timeout (now - last_time p).

(** Confirmed: fit-ready and not expired. *)
Definition confirmed (now : R) (p : Projectile) : bool :=
  match fit (history p) with
  | Some _ => negb (expired now p)
  | None => false
  end.

(** Modelled from the spec: ingest(id, timestamp, measuredPosition). *)
Definition ingest (id : Z) (ts : R) (pos : vec) (m : gmap Z Projectile)
    : gmap Z Projectile :=
  match m !! id with
  | Some p => <[id := mkProjectile (pid p) (history p ++ [(ts, pos)]) ts]> m
  | None => <[id := mkProjectile id [(ts, pos)] ts]> m
  end.

(** Modelled from the spec: tick(currentTime) removes expired entries. *)
Definition tick (now : R) (m : gmap Z Projectile) : gmap Z Projectile :=
  filter (fun kv : Z * Projectile => expired now kv.2 = false) m.

Definition snapshot (m : gmap Z Projectile) : gmap Z Projectile := m.

(* ------------------------------------------------------------------ *)
(** ** Target selector *)

(** The reachable workspace: a sphere around the base. *)
Record SelectorConfig := mkSelectorConfig {
  ws_center : vec; ws_radius : R
}.

Variable sc : SelectorConfig.

Definition in_workspace (x : vec) : bool :=
  let d := vsub x (ws_center sc) in
  Rleb (dot d d) (ws_radius sc * ws_radius sc).

(** [t] is a reachable intercept time of [p] after [now]: a time
    [t > now] at which the predicted position lies in the workspace. *)
Definition reachable_at (now : R) (p : Projectile) (t : R) : Prop :=
  match fit (history p) with
  | Some e => now < t /\ in_workspace (predict e t) = true
  | None => False
  end.

(** [t] is the smallest such time. *)
Definition earliest_at (now : R) (p : Projectile) (t : R) : Prop :=
  reachable_at now p t /\ forall t', reachable_at now p t' -> t <= t'.

(** Modelled from the spec: earliest reachable intercept time, "the
    smallest t > currentTime for which the predicted position lies within
    the manipulator's reachable workspace"; none when there is no such
    smallest time. *)
Definition earliest_intercept (now : R) (p : Projectile) : option R :=
  match excluded_middle_informative (exists t, earliest_at now p t) with
  | left H => Some (proj1_sig (constructive_indefinite_description _ H))
  | right _ => None
  end.

Definition consider (now : R) (p : Projectile) (best : option (Projectile * R))
    : option (Projectile * R) :=
  if confirmed now p then
    match earliest_intercept now p with
    | None => best
    | Some t =>
        match best with
        | None => Some (p, t)
        | Some (b, tb) =>
            if Rlt_dec t tb then Some (p, t)
            else if Req_EM_T t tb then
              (if (pid p <? pid b)%Z then Some (p, t) else best)
            else best
        end
    end
  else best.

Definition select_list (now : R) (ps : list Projectile) : option (Projectile * R) :=
  fold_right (consider now) None ps.

(** Modelled from the spec: TargetSelector.select. *)
Definition select (now : R) (m : gmap Z Projectile) : option Projectile :=
  option_map fst (select_list now (map snd (map_to_list m))).

End Estimator.

(* ------------------------------------------------------------------ *)
(** ** Interception state machine and shared state (int state,
    Projectile* target, bool paused) *)

Inductive InterceptionMode := READY | TRACKING | INTERCEPTING | RECOVERING.

(** The mutex-guarded shared block. The target is a reference into the
    projectile mapping, held as its key. *)
Record Shared := mkShared {
  mode : InterceptionMode;
  target : option Z;
  paused : bool;
  now : R;
  intercept_time : R;
  robot : RobotState;
  setpoint : DesiredSetpoint;
  gains : ControlGains;
  ctrl : ControlMode;
  projectiles : gmap Z Projectile
}.

Record MachineConfig := mkMachineConfig {
  mc_timeout : R;
  mc_selector : SelectorConfig;
  intercept_threshold : R;
  ready_pos_joint : vec;
  ready_tol : R
}.

Section StateMachine.

Variable orientation_error : mat -> mat -> vec.
Variable dof : nat.
Variable cfg : MachineConfig.

Definition set_mode (md : InterceptionMode) (tg : option Z) (ti : R)
    (sp : DesiredSetpoint) (cm : ControlMode) (s : Shared) : Shared :=
  mkShared md tg (paused s) (now s) ti (robot s) sp (gains s) cm (projectiles s).

Definition ready_setpoint (s : Shared) : DesiredSetpoint :=
  mkDesiredSetpoint (x_d (setpoint s)) (R_d (setpoint s)) (ready_pos_joint cfg).

(** Desired pose at the predicted intercept point of [p] at time [t]. *)
Definition intercept_setpoint (s : Shared) (p : Projectile) (t : R) : DesiredSetpoint :=
  match fit (history p) with
  | Some e => mkDesiredSetpoint (predict e t) (R_d (setpoint s)) (q_d (setpoint s))
  | None => setpoint s
  end.

Definition go_ready (md : InterceptionMode) (s : Shared) : Shared :=
  set_mode md None (intercept_time s) (ready_setpoint s) JointSpace s.

Definition eta (s : Shared) (p : Projectile) : option R :=
  earliest_intercept (mc_selector cfg) (now s) p.

Definition joint_dist2 (a b : vec) : R := let d := vsub a b in dot d d.

(** Modelled from the spec: stateMachine (section 4.4). *)
Definition stateMachine (s : Shared) : Shared :=
  let sel := select (mc_timeout cfg) (mc_selector cfg) (now s) (projectiles s) in
  match mode s with
  | READY =>
      match sel with
      | Some p =>
          match eta s p with
          | Some t => set_mode TRACKING (Some (pid p)) t
                        (intercept_setpoint s p t) FullTaskSpace s
          | None => go_ready READY s
          end
      | None => go_ready READY s
      end
  | TRACKING =>
      match sel with
      | Some p =>
          match eta s p with
          | Some t =>
              if Rlt_dec (t - now s) (intercept_threshold cfg)
              then set_mode INTERCEPTING (Some (pid p)) t
                     (intercept_setpoint s p t) IncrementalTaskSpace s
              else set_mode TRACKING (Some (pid p)) t
                     (intercept_setpoint s p t) FullTaskSpace s
          | None => go_ready READY s
          end
      | None => go_ready READY s
      end
  | INTERCEPTING =>
      if Rle_dec (intercept_time s) (now s) then go_ready RECOVERING s
      else
        let alive :=
          match target s with
          | Some id =>
              match projectiles s !! id with
              | Some p => confirmed (mc_timeout cfg) (now s) p
                          && (if eta s p then true else false)
              | None => false
              end
          | None => false
          end in
        if alive then s else go_ready READY s
  | RECOVERING =>
      if Rle_dec (joint_dist2 (q (robot s)) (ready_pos_joint cfg))
                 (ready_tol cfg * ready_tol cfg)
      then go_ready READY s
      else go_ready RECOVERING s
  end.

Definition with_torque (t : vec) (s : Shared) : Shared :=
  let rs := robot s in
  mkShared (mode s) (target s) (paused s) (now s) (intercept_time s)
    (mkRobotState (q rs) (dq rs) (x_c rs) (v rs) (R_c rs) (omega rs) (J rs)
       (g_q rs) t)
    (setpoint s) (gains s) (ctrl s) (projectiles s).

(** The torque of the current cycle, from the shared state. *)
Definition cycle_torque (s : Shared) : vec :=
  computeTorque orientation_error dof (ctrl s) (robot s) (setpoint s) (gains s).

(** Modelled from the spec: one iteration of controlsLoop: state machine,
    then control law and compensation/limiting, then the command is
    stored; nothing is updated while paused. *)
Definition control_step (s : Shared) : Shared :=
  if paused s then s
  else let s1 := stateMachine s in with_torque (cycle_torque s1) s1.

(** Reads of the shared state (graphics and shell). *)
Definition read_mode (s : Shared) : InterceptionMode := mode s.
Definition read_setpoint (s : Shared) : DesiredSetpoint := setpoint s.
Definition read_torque (s : Shared) : vec := tau (robot s).

(** Operations of the five loops on the shared block. *)
Inductive Op :=
| OpControl
| OpIngest (id : Z) (ts : R) (pos : vec)
| OpTick
| OpAdvance (dt : R)
| OpPause (b : bool)
| OpGains (g : ControlGains)
| OpOverride (sp : DesiredSetpoint)
| OpReset.

Definition with_projectiles (m : gmap Z Projectile) (s : Shared) : Shared :=
  mkShared (mode s) (target s) (paused s) (now s) (intercept_time s)
    (robot s) (setpoint s) (gains s) (ctrl s) m.

Definition set_paused (b : bool) (s : Shared) : Shared :=
  mkShared (mode s) (target s) b (now s) (intercept_time s)
    (robot s) (setpoint s) (gains s) (ctrl s) (projectiles s).

Definition exec (o : Op) (s : Shared) : Shared :=
  match o with
  | OpControl => control_step s
  | OpIngest id ts pos => with_projectiles (ingest id ts pos (projectiles s)) s
  | OpTick => with_projectiles (tick (mc_timeout cfg) (now s) (projectiles s)) s
  | OpAdvance dt =>
      mkShared (mode s) (target s) (paused s) (now s + dt) (intercept_time s)
        (robot s) (setpoint s) (gains s) (ctrl s) (projectiles s)
  | OpPause b => set_paused b s
  | OpGains g =>
      mkShared (mode s) (target s) (paused s) (now s) (intercept_time s)
        (robot s) (setpoint s) g (ctrl s) (projectiles s)
  | OpOverride sp =>
      mkShared (mode s) (target s) (paused s) (now s) (intercept_time s)
        (robot s) sp (gains s) (ctrl s) (projectiles s)
  | OpReset => go_ready READY s
  end.

Inductive reachable (init : Shared) : Shared -> Prop :=
| reach_init : mode init = READY -> target init = None -> reachable init init
| reach_exec o s : reachable init s -> reachable init (exec o s).

Definition target_invariant (s : Shared) : Prop :=
  target s <> None -> mode s = TRACKING \/ mode s = INTERCEPTING.

End StateMachine.

(* ------------------------------------------------------------------ *)
(** ** ProjectileGenerator (simulation) *)

Record SimProjectile := mkSimProjectile {
  sim_id : Z; sim_t0 : R; sim_p0 : vec; sim_v0 : vec; sim_a0 : vec; sim_p : vec
}.

Record ProjectileGenerator := mkGenerator {
  count : Z;
  t_avg : R; v_avg : R; theta_avg : R;
  rng : nat;                                (* position in the random stream *)
  sim_time : R;
  last_launch : R;
  gen_projectiles : gmap Z SimProjectile;
  pendingProjectile : SimProjectile;
  pendingProjectileExists : bool
}.

Section Generator.

(** The random engine's draws: (exponential inter-arrival sample,
    normal velocity sample, normal angle sample, lateral offset). *)
Variable draws : nat -> R * R * R * R.
(** The +X boundary of the workspace where launches start. *)
Variable launch_x : R.
(** The identifier the next launch receives: neither the headers nor the
    spec say how launches are numbered. *)
Variable launch_id : ProjectileGenerator -> Z.
(** [SimProjectile() {}], the value pendingProjectile starts with: the
    constructor leaves its fields uninitialized, so it is left arbitrary. *)
Variable sim_default : SimProjectile.


(** Modelled from the spec: getNextProjectile, the next scheduled launch
    after an exponential inter-arrival draw; count is the number of
    projectiles generated. *)
Definition getNextProjectile (g : ProjectileGenerator)
    : SimProjectile * ProjectileGenerator :=
  let '(dt_exp, vel, th, y) := draws (rng g) in
  let t_launch := last_launch g + dt_exp in
  let p0' := [launch_x; y; 0] in
  let v0' := [- vel * cos th; 0; vel * sin th] in
  (mkSimProjectile (launch_id g) t_launch p0' v0' gravity p0',
   mkGenerator (count g + 1) (t_avg g) (v_avg g) (theta_avg g) (S (rng g))
     (sim_time g) t_launch (gen_projectiles g) (pendingProjectile g)
     (pendingProjectileExists g)).

(** Modelled from the spec: update, advancing the simulated time by [dt],
    promoting a pending launch whose time has passed and scheduling the
    next one. *)
Definition update (dt : R) (g : ProjectileGenerator) : ProjectileGenerator :=
  let t' := sim_time g + dt in
  let g1 :=
    if pendingProjectileExists g && Rleb (sim_t0 (pendingProjectile g)) t'
    then mkGenerator (count g) (t_avg g) (v_avg g) (theta_avg g) (rng g) t'
           (last_launch g)
           (<[sim_id (pendingProjectile g) := pendingProjectile g]> (gen_projectiles g))
           (pendingProjectile g) false
    else mkGenerator (count g) (t_avg g) (v_avg g) (theta_avg g) (rng g) t'
           (last_launch g) (gen_projectiles g) (pendingProjectile g)
           (pendingProjectileExists g) in
  if pendingProjectileExists g1 then g1
  else
    let '(p, g2) := getNextProjectile g1 in
    mkGenerator (count g2) (t_avg g2) (v_avg g2) (theta_avg g2) (rng g2)
      (sim_time g2) (last_launch g2) (gen_projectiles g2) p true.

End Generator.

(* ------------------------------------------------------------------ *)
(** ** Concrete configurations used by the witnesses *)

Definition no_orientation_error (Ra Rb : mat) : vec := [0; 0; 0].

Definition rs_one : RobotState :=
  mkRobotState [0.5] [1] [1; 0; 0] [0; 0; 0] [] [0; 0; 0]
    [[1]; [0]; [0]; [0]; [0]; [0]] [4] [0].

Definition sp_one : DesiredSetpoint := mkDesiredSetpoint [0; 0; 0] [] [0].

Definition gains_one : ControlGains :=
  mkControlGains 10 1 10 1 [10] [1] 0.5 [2] [0] [1] 0.2 1 [3] 0.25.

Definition shared_one : Shared :=
  mkShared READY None false 0 0 rs_one sp_one gains_one FullTaskSpace ∅.

Definition shared_paused : Shared :=
  mkShared TRACKING (Some 3%Z) true 0 1 rs_one sp_one gains_one FullTaskSpace ∅.

Definition cfg_one : MachineConfig :=
  mkMachineConfig 10 (mkSelectorConfig [0; 0; 0] 2) 0.5 [0] 0.05.

Definition sc_one : SelectorConfig := mkSelectorConfig [0; 0; 0] 2.

(** A workspace around the apex (0, 0, 4.9) of proj_landing's trajectory. *)
Definition sc_apex : SelectorConfig := mkSelectorConfig [0; 0; 4.9] (4.9 / 4).

(** One sample only. *)
Definition proj_single : Projectile := mkProjectile 7 [(0, [1; 2; 3])] 0.

(** Two samples of z(t) = 9.8 t - 4.9 t^2, which lands at t = 2. *)
Definition proj_landing : Projectile :=
  mkProjectile 3 [(0, [0; 0; 0]); (1, [0; 0; 4.9])] 1.

(** The members of one cycle: the inputs of rs_one, sp_one, gains_one
    under incremental control, with zeroed and with leftover scratch
    members (previous tau, tau_jlim, forces, errors, x_inc). *)
Definition members_clean : Members :=
  mkMembers rs_one sp_one gains_one IncrementalTaskSpace [] [] [] [] [] [] [] [].

Definition members_dirty : Members :=
  mkMembers (mkRobotState [0.5] [1] [1; 0; 0] [0; 0; 0] [] [0; 0; 0]
               [[1]; [0]; [0]; [0]; [0]; [0]] [4] [7])
    sp_one gains_one IncrementalTaskSpace [3; 3; 3] [1; 1; 1] [2; 2; 2] [2; 2; 2]
    [5; 5; 5; 5; 5; 5] [8] [6] [9; 9; 9].

(** At rest at the setpoint of sp_one. *)
Definition rs_rest : RobotState :=
  mkRobotState [0] [0] [0; 0; 0] [0; 0; 0] [] [0; 0; 0]
    [[1]; [0]; [0]; [0]; [0]; [0]] [4] [0].

Definition draws_const (i : nat) : R * R * R * R := (1, 10, 1, 0).

Definition sim_due : SimProjectile := mkSimProjectile 0 0.5 [5; 0; 0] [-1; 0; 1] gravity [5; 0; 0].

(** A generator whose pending projectile is due at t = 0.5. *)
Definition gen_due : ProjectileGenerator :=
  mkGenerator 1 1 10 1 1 0 0.5 ∅ sim_due true.

(** What selection over a list guarantees. *)
Definition select_list_ok (timeout : R) (sc : SelectorConfig) (now : R) (ps : list Projectile)
    (r : option (Projectile * R)) : Prop :=
  match r with
  | Some (p, t) =>
      In p ps /\ confirmed timeout now p = true /\
      earliest_intercept sc now p = Some t /\
      forall p' t', In p' ps -> confirmed timeout now p' = true ->
        earliest_intercept sc now p' = Some t' ->
        t < t' \/ (t = t' /\ (pid p <= pid p')%Z)
  | None =>
      forall p', In p' ps -> confirmed timeout now p' = true ->
        earliest_intercept sc now p' = None
  end.

(* ------------------------------------------------------------------ *)
(** ** Vector lemmas *)

Lemma length_vzip f u w : length (vzip f u w) = Nat.min (length u) (length w).
Proof.
  revert w; induction u as [|a u IH]; intros [|b w]; simpl; auto.
Qed.

Lemma nth_vzip f u w j :
  (j < length u)%nat -> (j < length w)%nat ->
  nth j (vzip f u w) 0 = f (nth j u 0) (nth j w 0).
Proof.
  revert u w; induction j as [|j IH]; intros [|a u] [|b w]; simpl; intros; try lia;
    [reflexivity | apply IH; lia].
Qed.

Lemma nth_vscale c u j :
  (j < length u)%nat -> nth j (vscale c u) 0 = c * nth j u 0.
Proof.
  revert u; induction j as [|j IH]; intros [|a u]; simpl; intros; try lia; auto.
  apply IH; lia.
Qed.

Lemma length_vscale c u : length (vscale c u) = length u.
Proof. apply length_map. Qed.

Lemma length_jt_mul dof Jm F :
  Forall (fun r => length r = dof) Jm -> length (jt_mul dof Jm F) = dof.
Proof.
  unfold jt_mul. revert F.
  induction Jm as [|r Jm IH]; intros [|f F] HJ; simpl;
    try (unfold zeros; apply repeat_length).
  inversion HJ; subst. unfold vadd.
  rewrite length_vzip, length_vscale, IH; auto. lia.
Qed.

Lemma length_jlim_vec band k qs los his sats :
  length (jlim_vec band k qs los his sats) =
  Nat.min (length qs) (Nat.min (length los) (Nat.min (length his) (length sats))).
Proof.
  revert los his sats; induction qs as [|a qs IH];
    intros [|lo los] [|hi his] [|s sats]; simpl; auto; lia.
Qed.

Lemma nth_jlim_vec band k qs los his sats j :
  (j < length qs)%nat -> (j < length los)%nat ->
  (j < length his)%nat -> (j < length sats)%nat ->
  nth j (jlim_vec band k qs los his sats) 0 =
  joint_limit_torque band k (nth j qs 0) (nth j los 0) (nth j his 0) (nth j sats 0).
Proof.
  revert qs los his sats; induction j as [|j IH];
    intros [|a qs] [|lo los] [|hi his] [|s sats]; simpl; intros; try lia; auto.
  apply IH; lia.
Qed.

Lemma dot_nonneg u : 0 <= dot u u.
Proof.
  unfold dot, vcwise. induction u as [|a u IH]; simpl; [lra|].
  pose proof (Rle_0_sqr a) as Ha. unfold Rsqr in Ha. lra.
Qed.

Lemma dot_vscale c u : dot (vscale c u) (vscale c u) = c * c * dot u u.
Proof.
  unfold dot, vcwise, vscale. induction u as [|a u IH]; simpl; [ring|].
  rewrite IH. ring.
Qed.

Lemma norm_vscale c u : norm (vscale c u) = Rabs c * norm u.
Proof.
  unfold norm. rewrite dot_vscale, sqrt_mult_alt.
  - rewrite <- (sqrt_Rsqr_abs c). reflexivity.
  - pose proof (Rle_0_sqr c) as H. unfold Rsqr in H. exact H.
Qed.

(* ------------------------------------------------------------------ *)
(** ** Control-law lemmas *)

Lemma clamp_bounds lim x : 0 <= lim -> - lim <= clamp lim x <= lim.
Proof.
  intros H. unfold clamp. split.
  - apply Rmax_l.
  - apply Rmax_lub; [lra | apply Rmin_l].
Qed.

Lemma clamp_cases lim x : 0 <= lim ->
  (- lim <= x <= lim -> clamp lim x = x) /\
  (lim < x -> clamp lim x = lim) /\
  (x < - lim -> clamp lim x = - lim).
Proof.
  intros H. unfold clamp. repeat split; intros Hx.
  - rewrite Rmin_right by lra. rewrite Rmax_right by lra. reflexivity.
  - rewrite Rmin_left by lra. rewrite Rmax_right by lra. reflexivity.
  - rewrite Rmin_right by lra. rewrite Rmax_left by lra. reflexivity.
Qed.

Lemma repulsion_range band k sat d :
  0 < band -> 0 <= k -> 0 <= sat -> 0 <= repulsion band k sat d <= sat.
Proof.
  intros Hb Hk Hs. unfold repulsion.
  destruct (Rle_dec d 0) as [Hd|Hd]; [lra|].
  destruct (Rlt_dec d band) as [Hdb|Hdb]; [|lra].
  split; [|apply Rmin_l].
  apply Rmin_glb; [exact Hs|].
  apply Rmult_le_pos; [exact Hk|].
  assert (/ band < / d) by (apply Rinv_lt_contravar; [apply Rmult_lt_0_compat|]; lra).
  lra.
Qed.

Lemma repulsion_interior band k sat d :
  0 < band -> band <= d -> repulsion band k sat d = 0.
Proof.
  intros Hb Hd. unfold repulsion.
  destruct (Rle_dec d 0); [lra|]. destruct (Rlt_dec d band); [lra|]. reflexivity.
Qed.

Lemma repulsion_antitone band k sat d1 d2 :
  0 < band -> 0 <= k -> 0 <= sat -> d1 <= d2 ->
  repulsion band k sat d2 <= repulsion band k sat d1.
Proof.
  intros Hb Hk Hs H12.
  pose proof (repulsion_range band k sat d1 Hb Hk Hs) as R1.
  pose proof (repulsion_range band k sat d2 Hb Hk Hs) as R2.
  unfold repulsion in *.
  destruct (Rle_dec d1 0) as [H1|H1]; [lra|].
  destruct (Rle_dec d2 0) as [H2|H2]; [lra|].
  destruct (Rlt_dec d1 band) as [B1|B1]; destruct (Rlt_dec d2 band) as [B2|B2];
    try lra.
  apply Rle_min_compat_l, Rmult_le_compat_l; [exact Hk|].
  assert (/ d2 <= / d1).
  { apply Rinv_le_contravar; lra. }
  lra.
Qed.

Lemma joint_limit_torque_range band k qj lo hi sat :
  0 < band -> 0 <= k -> 0 <= sat ->
  - sat <= joint_limit_torque band k qj lo hi sat <= sat.
Proof.
  intros Hb Hk Hs. unfold joint_limit_torque.
  pose proof (repulsion_range band k sat (qj - lo) Hb Hk Hs).
  pose proof (repulsion_range band k sat (hi - qj) Hb Hk Hs).
  lra.
Qed.

Section ControlProofs.

Variable orientation_error : mat -> mat -> vec.
Variable dof : nat.

Lemma length_base_torque m rs sp g :
  valid_config dof rs sp g ->
  length (base_torque orientation_error dof m rs sp g) = dof.
Proof.
  intros (Hq & Hdq & Hg & HJ & Hqd & Hkp & Hkv & Hl & Hlpos & Hmin & Hmax & Hsat).
  destruct m; simpl;
    unfold fullTaskSpaceControl, incrementalTaskSpaceControl,
      resolvedMotionRateControl, jointSpaceControl, task_space_torque,
      vsub, vcwise;
    repeat first [ rewrite length_vzip | rewrite length_jt_mul by exact HJ ];
    try rewrite length_jt_mul by exact HJ; lia.
Qed.

Lemma length_pre_limit m rs sp g :
  valid_config dof rs sp g ->
  length (applyJointLimitPotential rs g (applyJointFriction rs g
    (applyGravityCompensation rs (base_torque orientation_error dof m rs sp g)))) = dof.
Proof.
  intros Hv. pose proof (length_base_torque m rs sp g Hv) as Hb.
  destruct Hv as (Hq & Hdq & Hg & HJ & Hqd & Hkp & Hkv & Hl & Hlpos & Hmin & Hmax & Hsat).
  unfold applyJointLimitPotential, applyJointFriction, applyGravityCompensation,
    vadd, vsub.
  rewrite !length_vzip, length_vscale, length_jlim_vec. lia.
Qed.

End ControlProofs.

Ltac solve_len :=
  unfold vadd, vsub; rewrite ?length_vzip, ?length_vscale, ?length_jlim_vec; lia.

Ltac prove_valid :=
  unfold valid_config;
  repeat match goal with
  | |- _ /\ _ => split
  | |- Forall _ _ => constructor
  | |- length _ = _ => reflexivity
  end;
  cbn [tau_limit q_sat]; lra.

Section ControlClaims.

Variable orientation_error : mat -> mat -> vec.
Variable dof : nat.

(** C1: for every valid configuration and every control mode, the torque
    of one control cycle has exactly [dof] entries and entry [j] lies in
    [-limit_j, +limit_j]. *)
Theorem computeTorque_within_limits m rs sp g :
  valid_config dof rs sp g ->
  length (computeTorque orientation_error dof m rs sp g) = dof /\
  forall j, (j < dof)%nat ->
    - nth j (tau_limit g) 0 <= nth j (computeTorque orientation_error dof m rs sp g) 0
    <= nth j (tau_limit g) 0.
Proof.
  intros Hv. pose proof (length_pre_limit orientation_error dof m rs sp g Hv) as Hp.
  destruct Hv as (Hq & Hdq & Hg & HJ & Hqd & Hkp & Hkv & Hl & Hlpos & Hmin & Hmax & Hsat).
  unfold computeTorque, applyTorqueLimits.
  split.
  - rewrite length_vzip, Hp, Hl. lia.
  - intros j Hj. rewrite nth_vzip by lia. apply clamp_bounds.
    rewrite Forall_nth in Hlpos. apply Hlpos. lia.
Qed.

(** C2: after the base torque of any mode, joint [j] receives gravity
    compensation, minus friction damping, plus the joint-limit restoring
    torque, and the sum is clamped at the joint's own limit. The restoring
    torque is zero in the interior, bounded by q_sat, and each repulsive
    term grows as the distance to the bound shrinks; the clamp is a hard
    saturation of the component. *)
Theorem compensation_stages_in_order m rs sp g j :
  valid_config dof rs sp g -> (j < dof)%nat ->
  0 < jlim_band g -> 0 <= kp_jlim g -> Forall (fun s => 0 <= s) (q_sat g) ->
  let band := jlim_band g in
  let k := kp_jlim g in
  let sat := nth j (q_sat g) 0 in
  let tj := joint_limit_torque band k (nth j (q rs) 0) (nth j (q_min g) 0)
              (nth j (q_max g) 0) sat in
  let L := nth j (tau_limit g) 0 in
  let pre := nth j (base_torque orientation_error dof m rs sp g) 0
             + nth j (g_q rs) 0 - kv_friction g * nth j (dq rs) 0 + tj in
  nth j (computeTorque orientation_error dof m rs sp g) 0 = clamp L pre /\
  (nth j (q_min g) 0 + band <= nth j (q rs) 0 <= nth j (q_max g) 0 - band ->
     tj = 0) /\
  - sat <= tj <= sat /\
  (forall d1 d2, d1 <= d2 -> repulsion band k sat d2 <= repulsion band k sat d1) /\
  ((- L <= pre <= L -> clamp L pre = pre) /\ (L < pre -> clamp L pre = L) /\
   (pre < - L -> clamp L pre = - L)).
Proof.
  intros Hv Hj Hb Hk Hs band k sat tj L pre.
  pose proof (length_base_torque orientation_error dof m rs sp g Hv) as Hbase.
  pose proof Hv as (Hq & Hdq & Hg & HJ & Hqd & Hkp & Hkv & Hl & Hlpos & Hmin & Hmax & Hsat).
  assert (Hsj : 0 <= sat) by (unfold sat; rewrite Forall_nth in Hs; apply Hs; lia).
  assert (HL : 0 <= L) by (unfold L; rewrite Forall_nth in Hlpos; apply Hlpos; lia).
  split; [|split; [|split; [|split]]].
  - unfold computeTorque, applyTorqueLimits, applyJointLimitPotential,
      applyJointFriction, applyGravityCompensation.
    rewrite nth_vzip by solve_len. unfold vadd at 1.
    rewrite nth_vzip by solve_len. unfold vsub.
    rewrite nth_vzip by solve_len. rewrite nth_vscale by lia. unfold vadd.
    rewrite nth_vzip by solve_len.
    rewrite nth_jlim_vec by lia. reflexivity.
  - intros [H1 H2]. unfold tj, joint_limit_torque.
    rewrite !repulsion_interior by (unfold band in *; lra). ring.
  - apply joint_limit_torque_range; assumption.
  - intros d1 d2 H12. apply repulsion_antitone; assumption.
  - apply clamp_cases. exact HL.
Qed.

(** C3: incremental task-space control feeds the force law the position
    and orientation errors clamped to the maximum step s; an error of
    magnitude above s becomes one of magnitude exactly s in the same
    direction, an error of magnitude at most s is passed unchanged. *)
Theorem incremental_error_clamped rs sp g :
  0 < max_step g ->
  fullTaskSpaceControl orientation_error dof rs sp g =
    task_space_torque dof rs g (vsub (x_c rs) (x_d sp))
      (orientation_error (R_c rs) (R_d sp)) /\
  incrementalTaskSpaceControl orientation_error dof rs sp g =
    task_space_torque dof rs g (clamp_step (max_step g) (vsub (x_c rs) (x_d sp)))
      (clamp_step (max_step g) (orientation_error (R_c rs) (R_d sp))) /\
  (forall e, max_step g < norm e ->
     norm (clamp_step (max_step g) e) = max_step g /\
     exists c, 0 < c /\ clamp_step (max_step g) e = vscale c e) /\
  (forall e, norm e <= max_step g -> clamp_step (max_step g) e = e).
Proof.
  intros Hs. split; [reflexivity|]. split; [reflexivity|]. split.
  - intros e He. unfold clamp_step.
    destruct (Rlt_dec (max_step g) (norm e)) as [H|H]; [|lra].
    assert (Hn : 0 < norm e) by lra.
    split.
    + rewrite norm_vscale, Rabs_right.
      * field. lra.
      * apply Rle_ge, Rlt_le, Rdiv_lt_0_compat; lra.
    + exists (max_step g / norm e). split; [apply Rdiv_lt_0_compat; lra | reflexivity].
  - intros e He. unfold clamp_step.
    destruct (Rlt_dec (max_step g) (norm e)); [lra | reflexivity].
Qed.

End ControlClaims.

Lemma computeTorque_within_limits_witness :
  valid_config 1 rs_one sp_one gains_one /\
  length (computeTorque no_orientation_error 1 IncrementalTaskSpace rs_one sp_one gains_one) = 1%nat /\
  (forall j, (j < 1)%nat ->
     - nth j (tau_limit gains_one) 0
     <= nth j (computeTorque no_orientation_error 1 IncrementalTaskSpace rs_one sp_one gains_one) 0
     <= nth j (tau_limit gains_one) 0).
Proof.
  assert (H : valid_config 1 rs_one sp_one gains_one) by prove_valid.
  split; [exact H|].
  exact (computeTorque_within_limits no_orientation_error 1 IncrementalTaskSpace
           rs_one sp_one gains_one H).
Defined.

Lemma compensation_stages_in_order_witness :
  nth 0 (computeTorque no_orientation_error 1 FullTaskSpace rs_one sp_one gains_one) 0 =
  clamp 2 (nth 0 (base_torque no_orientation_error 1 FullTaskSpace rs_one sp_one gains_one) 0
           + 4 - 0.5 * 1 + joint_limit_torque 0.2 1 0.5 0 1 3).
Proof.
  assert (Hv : valid_config 1 rs_one sp_one gains_one) by prove_valid.
  assert (Hs : Forall (fun s => 0 <= s) (q_sat gains_one))
    by (cbn [q_sat gains_one]; constructor; [lra | constructor]).
  assert (Hb : 0 < jlim_band gains_one) by (cbn [jlim_band gains_one]; lra).
  assert (Hk : 0 <= kp_jlim gains_one) by (cbn [kp_jlim gains_one]; lra).
  exact (proj1 (compensation_stages_in_order no_orientation_error 1 FullTaskSpace
                  rs_one sp_one gains_one 0 Hv ltac:(lia) Hb Hk Hs)).
Defined.

Lemma incremental_error_clamped_witness :
  0 < max_step gains_one /\
  forall e, max_step gains_one < norm e ->
    norm (clamp_step (max_step gains_one) e) = max_step gains_one.
Proof.
  assert (Hs : 0 < max_step gains_one) by (cbn [max_step gains_one]; lra).
  split; [exact Hs|].
  intros e He.
  exact (proj1 (proj1 (proj2 (proj2
    (incremental_error_clamped no_orientation_error 1 rs_one sp_one gains_one Hs))) e He)).
Defined.


(* ------------------------------------------------------------------ *)
(** ** Selector and estimator lemmas *)

Section SelectorProofs.

Variable timeout : R.
Variable sc : SelectorConfig.

Lemma select_list_correct now ps :
  select_list_ok timeout sc now ps (select_list timeout sc now ps).
Proof.
  induction ps as [|a ps IH]; simpl; [intros p' []|].
  unfold consider.
  destruct (confirmed timeout now a) eqn:Ca.
  2:{ destruct (select_list timeout sc now ps) as [[b tb]|] eqn:Hs; simpl in *.
      - destruct IH as (Hin & Cb & Eb & Hmin). repeat split; auto.
        intros p' t' [<-|Hp'] Cp' Ep'; [congruence|]. eauto.
      - intros p' [<-|Hp'] Cp'; [congruence|]. auto. }
  destruct (earliest_intercept sc now a) as [ta|] eqn:Ea.
  2:{ destruct (select_list timeout sc now ps) as [[b tb]|] eqn:Hs; simpl in *.
      - destruct IH as (Hin & Cb & Eb & Hmin). repeat split; auto.
        intros p' t' [<-|Hp'] Cp' Ep'; [congruence|]. eauto.
      - intros p' [<-|Hp'] Cp'; [exact Ea|]. auto. }
  destruct (select_list timeout sc now ps) as [[b tb]|] eqn:Hs; simpl in *.
  - destruct IH as (Hin & Cb & Eb & Hmin).
    destruct (Rlt_dec ta tb) as [Hlt|Hlt].
    + simpl. repeat split; auto.
      intros p' t' [<-|Hp'] Cp' Ep'.
      * rewrite Ea in Ep'. injection Ep' as <-. right. split; [reflexivity|lia].
      * destruct (Hmin p' t' Hp' Cp' Ep') as [H|[H _]]; left; lra.
    + destruct (Req_EM_T ta tb) as [Heq|Hne].
      * destruct (pid a <? pid b)%Z eqn:Hid; simpl.
        -- apply Z.ltb_lt in Hid. repeat split; auto.
           intros p' t' [<-|Hp'] Cp' Ep'.
           ++ rewrite Ea in Ep'. injection Ep' as <-. right. split; [reflexivity|lia].
           ++ destruct (Hmin p' t' Hp' Cp' Ep') as [H|[H1 H2]]; [left; lra|].
              right. split; [lra|lia].
        -- apply Z.ltb_ge in Hid. repeat split; auto.
           intros p' t' [<-|Hp'] Cp' Ep'; [|eauto].
           rewrite Ea in Ep'. injection Ep' as <-. right. split; [lra|lia].
      * simpl. repeat split; auto.
        intros p' t' [<-|Hp'] Cp' Ep'; [|eauto].
        rewrite Ea in Ep'. injection Ep' as <-. left. lra.
  - repeat split; auto.
    intros p' t' [<-|Hp'] Cp' Ep'.
    + rewrite Ea in Ep'. injection Ep' as <-. right. split; [reflexivity|lia].
    + rewrite (IH p' Hp' Cp') in Ep'. discriminate.
Qed.

Lemma in_snd_map_to_list (m : gmap Z Projectile) p :
  In p (map snd (map_to_list m)) <-> exists k, m !! k = Some p.
Proof.
  rewrite in_map_iff. split.
  - intros [[k p'] [Hp Hin]]. simpl in Hp. subst p'. exists k.
    apply elem_of_map_to_list, list_elem_of_In. exact Hin.
  - intros [k Hk]. exists (k, p). split; [reflexivity|].
    apply list_elem_of_In, elem_of_map_to_list. exact Hk.
Qed.

Lemma select_confirmed now m p :
  select timeout sc now m = Some p -> confirmed timeout now p = true.
Proof.
  unfold select. pose proof (select_list_correct now (map snd (map_to_list m))) as H.
  destruct (select_list timeout sc now _) as [[b tb]|]; simpl; intros E; [|discriminate].
  injection E as <-. apply H.
Qed.

Lemma earliest_intercept_spec now p t :
  earliest_intercept sc now p = Some t <-> earliest_at sc now p t.
Proof.
  unfold earliest_intercept.
  destruct (excluded_middle_informative _) as [H|H].
  - destruct (constructive_indefinite_description _ H) as [t0 [H0 M0]]. simpl.
    split.
    + intros E. injection E as <-. split; assumption.
    + intros [Ht Mt]. f_equal. apply Rle_antisym; auto.
  - split; [discriminate|]. intros Ht. exfalso. apply H. exists t. exact Ht.
Qed.

Lemma earliest_intercept_none now p :
  earliest_intercept sc now p = None <-> ~ exists t, earliest_at sc now p t.
Proof.
  unfold earliest_intercept.
  destruct (excluded_middle_informative _) as [H|H]; split; try discriminate; auto.
  intros Hn. contradiction.
Qed.

Lemma fit_shape h e : fit h = Some e ->
  exists px py pz vx vy vz,
    p0 e = [px; py; pz] /\ v0 e = [vx; vy; vz] /\ a0 e = gravity.
Proof.
  unfold fit. destruct h as [|[ts pos] h']; [discriminate|].
  destruct (length _ <? 2)%nat; [discriminate|].
  destruct (Req_EM_T _ 0); [discriminate|].
  intros E. injection E as <-. cbn [p0 v0 a0].
  do 6 eexists. split; [reflexivity|split; reflexivity].
Qed.

Lemma fit_short h : (length h < 2)%nat -> fit h = None.
Proof.
  intros Hl. unfold fit. destruct h as [|[ts pos] h']; [reflexivity|].
  replace (length ((ts, pos) :: h') <? 2)%nat with true; [reflexivity|].
  symmetry. apply Nat.ltb_lt. exact Hl.
Qed.

End SelectorProofs.

(** The least intercept time is attained on a concrete trajectory:
    z(t) = 9.8 t - 4.9 t^2 is within 4.9/4 of its apex exactly for
    t in [0.5, 1.5], so the earliest intercept after t = 0 is 0.5. *)
Lemma earliest_intercept_apex : earliest_intercept sc_apex 0 proj_landing = Some (1 / 2).
Proof.
  apply earliest_intercept_spec. unfold earliest_at, reachable_at.
  remember (fit (history proj_landing)) as F eqn:HF.
  unfold fit in HF. cbn [history proj_landing length Nat.ltb Nat.leb] in HF.
  destruct (Req_EM_T _ 0) as [Hd|Hd].
  { exfalso. cbn [map fst snd vcwise vzip sumR fold_right INR] in Hd. lra. }
  match type of HF with _ = Some ?e0 => set (est := e0) in HF end.
  rewrite HF.
  assert (Hp : forall t, in_workspace sc_apex (predict est t) = true <->
                 (t - 1) * (t - 1) <= 1 / 4).
  { intros t. unfold in_workspace, Rleb, dot, est, predict, ls_axis, gravity, vadd, vsub,
      vscale, vcwise, sumR, sc_apex.
    cbn [t0 p0 v0 a0 ws_center ws_radius map fst snd vzip fold_right nth INR].
    match goal with |- context [_ / ?b] =>
      let H := fresh in assert (H : b = 1) by ring; rewrite H end.
    match goal with |- context [Rle_dec ?a _] =>
      replace a with ((4.9 * ((t - 1) * (t - 1))) * (4.9 * ((t - 1) * (t - 1)))) by lra
    end.
    assert (Hu : 0 <= (t - 1) * (t - 1)) by exact (Rle_0_sqr (t - 1)).
    set (u := (t - 1) * (t - 1)) in *.
    destruct (Rle_dec _ _) as [Hle|Hle]; split; intros Hx; try discriminate; try reflexivity.
    - destruct (Rle_dec u (1 / 4)) as [Hu4|Hu4]; [exact Hu4|exfalso].
      assert (HA : 4.9 / 4 < 4.9 * u) by lra. nra.
    - exfalso. apply Hle. assert (HA : 0 <= 4.9 * u <= 4.9 / 4) by lra. nra. }
  split.
  - split; [lra|]. apply Hp. lra.
  - intros t' [Ht' Hw]. apply Hp in Hw. nra.
Qed.

(** C4: the earliest reachable intercept time of a projectile is the
    smallest real time t > now at which its predicted position lies in the
    workspace (none when there is no such smallest time); selection returns
    a confirmed projectile of the mapping with the smallest such time, the
    lowest identifier among equal times, and none when no confirmed
    projectile is reachable. *)
Theorem select_earliest_lowest_id timeout sc now (m : gmap Z Projectile) :
  (forall p t, earliest_intercept sc now p = Some t <->
     exists e, fit (history p) = Some e /\ now < t /\
       in_workspace sc (predict e t) = true /\
       forall t', now < t' -> in_workspace sc (predict e t') = true -> t <= t') /\
  match select timeout sc now m with
  | Some p =>
      (exists k, m !! k = Some p) /\ confirmed timeout now p = true /\
      exists t, earliest_intercept sc now p = Some t /\
        forall k' p' t', m !! k' = Some p' -> confirmed timeout now p' = true ->
          earliest_intercept sc now p' = Some t' ->
          t < t' \/ (t = t' /\ (pid p <= pid p')%Z)
  | None =>
      forall k p', m !! k = Some p' -> confirmed timeout now p' = true ->
        earliest_intercept sc now p' = None
  end.
Proof.
  split.
  - intros p t. rewrite earliest_intercept_spec. unfold earliest_at, reachable_at.
    destruct (fit (history p)) as [e|] eqn:Hf.
    + split.
      * intros [[Hlt Hin] Hmin]. exists e. split; [reflexivity|].
        split; [exact Hlt|]. split; [exact Hin|].
        intros t' H1 H2. apply Hmin. split; assumption.
      * intros (e' & E & Hlt & Hin & Hmin). injection E as <-.
        split; [split; assumption|]. intros t' [H1 H2]. apply Hmin; assumption.
    + split; [intros [[] _]|]. intros (e' & E & _). discriminate.
  - unfold select.
    pose proof (select_list_correct timeout sc now (map snd (map_to_list m))) as H.
    destruct (select_list timeout sc now _) as [[b tb]|]; simpl in *.
    + destruct H as (Hin & Cb & Eb & Hmin).
      split; [apply in_snd_map_to_list; exact Hin|].
      split; [exact Cb|]. exists tb. split; [exact Eb|].
      intros k' p' t' Hk' Cp' Ep'. apply (Hmin p' t'); auto.
      apply in_snd_map_to_list. eauto.
    + intros k p' Hk Cp'. apply H; auto. apply in_snd_map_to_list. eauto.
Qed.

(** C5: a projectile is expired exactly when its fitted trajectory
    predicts z <= 0 at the current time or no measurement arrived within
    the timeout; a fitted trajectory that reaches the ground descending
    at t = 2.0 is expired at every later time; and after tick(now) the
    snapshot holds no entry expired at now. *)
Theorem expiry_policy timeout :
  (forall now p, expired timeout now p = true <->
     (exists e, fit (history p) = Some e /\ pos_z e now <= 0) \/
     timeout < now - last_time p) /\
  (forall p e, fit (history p) = Some e -> pos_z e 2 = 0 -> vel_z e 2 <= 0 ->
     forall now, 2 < now -> expired timeout now p = true) /\
  (forall now (m : gmap Z Projectile) k p,
     snapshot (tick timeout now m) !! k = Some p -> expired timeout now p = false).
Proof.
  split; [|split].
  - intros now p. unfold expired, Rleb, Rltb.
    destruct (fit (history p)) as [e|] eqn:Hf.
    + destruct (Rle_dec (pos_z e now) 0) as [Hz|Hz];
        destruct (Rlt_dec timeout (now - last_time p)) as [Ht|Ht]; simpl;
        split; intros H;
        first [ reflexivity | discriminate
              | (right; exact Ht) | (left; exists e; split; [reflexivity | exact Hz])
              | (destruct H as [(e' & He & Hz')|Ht'];
                   [injection He as <-; contradiction | contradiction]) ].
    + destruct (Rlt_dec timeout (now - last_time p)) as [Ht|Ht]; simpl;
        split; intros H;
        first [ reflexivity | discriminate | (right; exact Ht)
              | (destruct H as [(e' & He & Hz')|Ht']; [discriminate | contradiction]) ].
  - intros p e Hf Hz Hv now Hnow.
    destruct (fit_shape _ _ Hf) as (px & py & pz & vx & vy & vz & Hp & Hv0 & Ha).
    unfold expired. rewrite Hf.
    assert (Hlt : pos_z e now < 0).
    { unfold pos_z, vel_z, predict in *. rewrite Hp, Hv0, Ha in *.
      unfold gravity, vadd, vscale in *. cbn [vzip map nth] in *.
      assert (Hprod : (now - 2) * (vz - 49 / 10 * (now + 2 - 2 * t0 e)) < 0) by nra.
      nra. }
    unfold Rleb. destruct (Rle_dec (pos_z e now) 0); [reflexivity|lra].
  - intros now m k p H. unfold snapshot, tick in H.
    apply map_lookup_filter_Some in H. destruct H as [_ H]. exact H.
Qed.

(** C8: a projectile with fewer than two samples has no estimate (fit
    returns none, no error), is unconfirmed, has no intercept time, and
    is never the selected target. *)
Theorem underdetermined_not_selected timeout sc now p :
  (length (history p) < 2)%nat ->
  fit (history p) = None /\ confirmed timeout now p = false /\
  earliest_intercept sc now p = None /\
  forall m, select timeout sc now m <> Some p.
Proof.
  intros Hl. pose proof (fit_short _ Hl) as Hf.
  split; [exact Hf|].
  assert (Hc : confirmed timeout now p = false) by (unfold confirmed; rewrite Hf; reflexivity).
  split; [exact Hc|].
  split; [apply earliest_intercept_none; intros (t & Ht & _);
          unfold reachable_at in Ht; rewrite Hf in Ht; exact Ht|].
  intros m Hs. apply select_confirmed in Hs. congruence.
Qed.

Lemma underdetermined_not_selected_witness :
  (length (history proj_single) < 2)%nat /\
  fit (history proj_single) = None /\ confirmed 10 0 proj_single = false /\
  earliest_intercept sc_one 0 proj_single = None /\
  forall m, select 10 sc_one 0 m <> Some proj_single.
Proof.
  assert (H : (length (history proj_single) < 2)%nat) by (cbn; lia).
  exact (conj H (underdetermined_not_selected 10 sc_one 0 proj_single H)).
Defined.

Lemma expiry_policy_witness :
  exists e, fit (history proj_landing) = Some e /\ pos_z e 2 = 0 /\
    vel_z e 2 <= 0 /\ 2 < 3 /\ expired 10 3 proj_landing = true.
Proof.
  remember (fit (history proj_landing)) as F eqn:HF.
  assert (Hf : fit (history proj_landing) = F) by (subst F; reflexivity).
  unfold fit in HF. cbn [history proj_landing length Nat.ltb Nat.leb] in HF.
  destruct (Req_EM_T _ 0) as [Hd|Hd].
  { exfalso. cbn [map fst snd vcwise vzip sumR fold_right INR] in Hd. lra. }
  match type of HF with _ = Some ?e0 => set (est := e0) in HF end.
  rewrite HF in Hf. exists est.
  assert (Hz : pos_z est 2 = 0 /\ vel_z est 2 <= 0).
  { unfold est, pos_z, vel_z, predict, ls_axis, gravity, vadd, vscale, vcwise, sumR.
    cbn [t0 p0 v0 a0 map fst snd vzip fold_right nth INR].
    match goal with |- context [_ / ?b] =>
      let H := fresh in assert (H : b = 1) by ring; rewrite H end.
    split; lra. }
  destruct Hz as [Hz1 Hz2].
  assert (H23 : 2 < 3) by lra.
  split; [exact HF|]. split; [exact Hz1|]. split; [exact Hz2|]. split; [exact H23|].
  exact (proj1 (proj2 (expiry_policy 10)) proj_landing est Hf Hz1 Hz2 3 H23).
Defined.

(* ------------------------------------------------------------------ *)
(** ** State machine and pause *)

Section MachineProofs.

Variable orientation_error : mat -> mat -> vec.
Variable dof : nat.
Variable cfg : MachineConfig.

Lemma stateMachine_invariant s : target_invariant (stateMachine cfg s).
Proof.
  unfold stateMachine, target_invariant.
  destruct (mode s) eqn:Hm;
    repeat match goal with
    | |- context [match ?x with _ => _ end] => destruct x
    end; simpl; try rewrite Hm; auto; intros H; try congruence.
Qed.

Lemma exec_invariant o s :
  target_invariant s -> target_invariant (exec orientation_error dof cfg o s).
Proof.
  intros H. destruct o; simpl; auto.
  - unfold control_step. destruct (paused s); [exact H|].
    pose proof (stateMachine_invariant s) as Hs. unfold target_invariant in *.
    exact Hs.
  - unfold target_invariant. simpl. congruence.
Qed.

Lemma control_step_paused s :
  paused s = true -> control_step orientation_error dof cfg s = s.
Proof. intros H. unfold control_step. rewrite H. reflexivity. Qed.

Lemma iter_control_paused s n :
  paused s = true -> Nat.iter n (control_step orientation_error dof cfg) s = s.
Proof.
  intros H. induction n as [|n IH]; simpl; [reflexivity|].
  rewrite IH. apply control_step_paused. exact H.
Qed.

End MachineProofs.

(** C6: in every reachable state the target reference is set only in
    TRACKING or INTERCEPTING; every state-machine evaluation produces a
    state with this property and every operation on the shared block
    preserves it. *)
Theorem target_only_when_engaged orientation_error dof cfg :
  (forall s, target_invariant (stateMachine cfg s)) /\
  (forall o s, target_invariant s ->
     target_invariant (exec orientation_error dof cfg o s)) /\
  (forall init s, reachable orientation_error dof cfg init s ->
     target_invariant s /\
     (mode s = READY \/ mode s = RECOVERING -> target s = None)).
Proof.
  split; [apply stateMachine_invariant|].
  split; [apply exec_invariant|].
  intros init s Hr.
  assert (Hi : target_invariant s).
  { induction Hr as [Hm Ht|o s Hr IH].
    - unfold target_invariant. rewrite Ht. congruence.
    - apply exec_invariant. exact IH. }
  split; [exact Hi|].
  intros Hm. destruct (target s) as [z|] eqn:Ht; [|reflexivity].
  exfalso. destruct (Hi ltac:(congruence)) as [H|H]; destruct Hm as [H'|H'];
    congruence.
Qed.

(** C7: while paused, a control-cycle step (any number of them) leaves
    the shared block unchanged, so the mode, the desired setpoint and the
    commanded torque read back unchanged; clearing the flag resumes from
    exactly the stored mode. *)
Theorem pause_freezes orientation_error dof cfg s :
  paused s = true ->
  (forall n, Nat.iter n (control_step orientation_error dof cfg) s = s) /\
  read_mode (control_step orientation_error dof cfg s) = read_mode s /\
  read_setpoint (control_step orientation_error dof cfg s) = read_setpoint s /\
  read_torque (control_step orientation_error dof cfg s) = read_torque s /\
  (forall n,
     let s' := set_paused false (Nat.iter n (control_step orientation_error dof cfg) s) in
     mode s' = mode s /\
     control_step orientation_error dof cfg s' =
     control_step orientation_error dof cfg (set_paused false s)).
Proof.
  intros H.
  pose proof (control_step_paused orientation_error dof cfg s H) as Hc.
  split; [intros n; apply iter_control_paused; exact H|].
  rewrite Hc. split; [reflexivity|]. split; [reflexivity|]. split; [reflexivity|].
  intros n s'. unfold s'. rewrite iter_control_paused by exact H.
  split; reflexivity.
Qed.

Lemma pause_freezes_witness :
  paused shared_paused = true /\
  forall n, Nat.iter n (control_step no_orientation_error 1 cfg_one) shared_paused =
            shared_paused.
Proof.
  split; [reflexivity|].
  exact (proj1 (pause_freezes no_orientation_error 1 cfg_one shared_paused eq_refl)).
Defined.

Ltac unfold_members :=
  cbn [control_cycle_m applyTorqueLimits_m applyJointLimitPotential_m
    applyJointFriction_m applyGravityCompensation_m base_torque_m
    fullTaskSpaceControl_m incrementalTaskSpaceControl_m
    resolvedMotionRateControl_m jointSpaceControl_m task_force compute_errors
    set_tau set_dx set_dphi set_F_p set_F_r set_F set_q_diff
    set_tau_jlim set_x_inc mb_robot mb_sp mb_gains mb_mode mb_dx mb_dphi mb_F_p
    mb_F_r mb_F mb_q_diff mb_tau_jlim mb_x_inc q dq x_c v R_c omega J g_q tau].

Ltac unfold_pipeline :=
  unfold computeTorque, applyTorqueLimits, applyJointLimitPotential,
    applyJointFriction, applyGravityCompensation, base_torque,
    fullTaskSpaceControl, incrementalTaskSpaceControl,
    resolvedMotionRateControl, jointSpaceControl, task_space_torque;
  cbn [q dq x_c v R_c omega J g_q tau].

(** What the member functions leave in tau is the pipeline's torque on
    their inputs. *)
Lemma control_cycle_m_tau orientation_error dof st :
  tau (mb_robot (control_cycle_m orientation_error dof st)) =
  computeTorque orientation_error dof (mb_mode st) (mb_robot st) (mb_sp st) (mb_gains st).
Proof.
  destruct st as [[] sp g md dx dphi Fp Fr F qd tj xi].
  destruct md; unfold_members; unfold_pipeline; reflexivity.
Qed.

Lemma computeTorque_same_inputs orientation_error dof a b :
  same_inputs a b ->
  computeTorque orientation_error dof (mb_mode a) (mb_robot a) (mb_sp a) (mb_gains a) =
  computeTorque orientation_error dof (mb_mode b) (mb_robot b) (mb_sp b) (mb_gains b).
Proof.
  destruct a as [[] sp g md dx dphi Fp Fr F qd tj xi].
  destruct b as [[] sp' g' md' dx' dphi' Fp' Fr' F' qd' tj' xi'].
  unfold same_inputs; cbn [mb_robot mb_sp mb_gains mb_mode q dq x_c v R_c omega J g_q].
  intros (-> & -> & -> & -> & -> & -> & -> & -> & -> & -> & ->).
  destruct md'; unfold_pipeline; reflexivity.
Qed.

Lemma control_cycle_m_inputs orientation_error dof st :
  same_inputs st (control_cycle_m orientation_error dof st).
Proof.
  destruct st as [[] sp g md dx dphi Fp Fr F qd tj xi].
  unfold same_inputs.
  destruct md; unfold_members; repeat split; reflexivity.
Qed.

(** C9: the control functions read and write the object's members (dx,
    dphi, F_p, F_r, F, q_diff, tau_jlim, x_inc, tau); the torque they leave
    is a function of the robot state, setpoint, gains and mode alone: it
    equals computeTorque of these inputs, two evaluations from member
    states that agree on the inputs give the same torque whatever the
    previous values of the written members, a cycle leaves the inputs
    unchanged, and evaluating it a second time with no intervening
    mutation yields the same torque. *)
Theorem control_cycle_pure orientation_error dof st :
  tau (mb_robot (control_cycle_m orientation_error dof st)) =
    computeTorque orientation_error dof (mb_mode st) (mb_robot st) (mb_sp st) (mb_gains st) /\
  (forall st', same_inputs st st' ->
     tau (mb_robot (control_cycle_m orientation_error dof st')) =
     tau (mb_robot (control_cycle_m orientation_error dof st))) /\
  same_inputs st (control_cycle_m orientation_error dof st) /\
  tau (mb_robot (control_cycle_m orientation_error dof
                   (control_cycle_m orientation_error dof st))) =
  tau (mb_robot (control_cycle_m orientation_error dof st)).
Proof.
  split; [apply control_cycle_m_tau|].
  split.
  - intros st' H. rewrite !control_cycle_m_tau.
    symmetry. apply computeTorque_same_inputs. exact H.
  - split; [apply control_cycle_m_inputs|].
    rewrite !control_cycle_m_tau. symmetry.
    apply computeTorque_same_inputs, control_cycle_m_inputs.
Qed.

Lemma control_cycle_pure_witness :
  same_inputs members_clean members_dirty /\
  tau (mb_robot (control_cycle_m no_orientation_error 1 members_dirty)) =
  tau (mb_robot (control_cycle_m no_orientation_error 1 members_clean)).
Proof.
  assert (H : same_inputs members_clean members_dirty)
    by (unfold same_inputs; repeat split; reflexivity).
  split; [exact H|].
  exact (proj1 (proj2 (control_cycle_pure no_orientation_error 1 members_clean))
           members_dirty H).
Defined.

(* ------------------------------------------------------------------ *)
(** ** Further properties of the control law *)

Definition all_zero (u : vec) : Prop := Forall (fun x => x = 0) u.

Lemma all_zero_nth u j : all_zero u -> nth j u 0 = 0.
Proof.
  unfold all_zero. revert j; induction u as [|a u IH]; intros j H; destruct j; simpl;
    try reflexivity; inversion H; subst; auto.
Qed.

Lemma all_zero_vzip_l f u w :
  (forall a b, a = 0 -> f a b = 0) -> all_zero u -> all_zero (vzip f u w).
Proof.
  unfold all_zero. intros Hf. revert w; induction u as [|a u IH]; intros [|b w] H;
    simpl; constructor; inversion H; subst; auto.
Qed.

Lemma all_zero_vzip_r f u w :
  (forall a b, b = 0 -> f a b = 0) -> all_zero w -> all_zero (vzip f u w).
Proof.
  unfold all_zero. intros Hf. revert w; induction u as [|a u IH]; intros [|b w] H;
    simpl; constructor; inversion H; subst; auto.
Qed.

Lemma all_zero_vzip_both f u w :
  f 0 0 = 0 -> all_zero u -> all_zero w -> all_zero (vzip f u w).
Proof.
  unfold all_zero. intros Hf Hu. revert w; induction Hu as [|a u Ha Hu IH];
    intros [|b w] Hw; simpl; constructor; inversion Hw; subst; auto.
Qed.

Lemma all_zero_vsub_self u : all_zero (vsub u u).
Proof.
  unfold all_zero, vsub. induction u as [|a u IH]; simpl; constructor; [ring|exact IH].
Qed.

Lemma all_zero_vscale c u : all_zero u -> all_zero (vscale c u).
Proof.
  unfold all_zero, vscale. intros H. induction H; simpl; constructor; auto.
  subst. ring.
Qed.

Lemma all_zero_app u w : all_zero u -> all_zero w -> all_zero (u ++ w).
Proof. unfold all_zero. intros. apply Forall_app. auto. Qed.

Lemma all_zero_jt_mul dof Jm F : all_zero F -> all_zero (jt_mul dof Jm F).
Proof.
  assert (Hz : all_zero (zeros dof)).
  { unfold all_zero, zeros. induction dof; simpl; constructor; auto. }
  unfold jt_mul. revert F; induction Jm as [|r Jm IH]; intros [|f F] H; simpl;
    try exact Hz.
  inversion H; subst. unfold vadd.
  apply all_zero_vzip_both; [ring| |exact (IH F H3)].
  unfold vscale, all_zero. clear. induction r; simpl; constructor; [ring|exact IHr].
Qed.

Lemma computeTorque_nth orientation_error dof m rs sp g j :
  valid_config dof rs sp g -> (j < dof)%nat ->
  nth j (computeTorque orientation_error dof m rs sp g) 0 =
  clamp (nth j (tau_limit g) 0)
    (nth j (base_torque orientation_error dof m rs sp g) 0 + nth j (g_q rs) 0
     - kv_friction g * nth j (dq rs) 0
     + joint_limit_torque (jlim_band g) (kp_jlim g) (nth j (q rs) 0)
         (nth j (q_min g) 0) (nth j (q_max g) 0) (nth j (q_sat g) 0)).
Proof.
  intros Hv Hj.
  pose proof (length_base_torque orientation_error dof m rs sp g Hv) as Hbase.
  pose proof Hv as (Hq & Hdq & Hg & HJ & Hqd & Hkp & Hkv & Hl & Hlpos & Hmin & Hmax & Hsat).
  unfold computeTorque, applyTorqueLimits, applyJointLimitPotential,
    applyJointFriction, applyGravityCompensation.
  rewrite nth_vzip by solve_len. unfold vadd at 1.
  rewrite nth_vzip by solve_len. unfold vsub.
  rewrite nth_vzip by solve_len. rewrite nth_vscale by lia. unfold vadd.
  rewrite nth_vzip by solve_len.
  rewrite nth_jlim_vec by lia. reflexivity.
Qed.

(** A robot at rest on its setpoint (zero position and orientation error,
    zero velocities, joint position equal to the desired one) receives, in
    every mode, only gravity compensation and the joint-limit torque, clamped. *)
Theorem torque_at_rest_is_compensation orientation_error dof m rs sp g :
  valid_config dof rs sp g ->
  x_c rs = x_d sp -> all_zero (v rs) -> all_zero (omega rs) ->
  all_zero (orientation_error (R_c rs) (R_d sp)) ->
  q rs = q_d sp -> all_zero (dq rs) ->
  all_zero (base_torque orientation_error dof m rs sp g) /\
  forall j, (j < dof)%nat ->
    nth j (computeTorque orientation_error dof m rs sp g) 0 =
    clamp (nth j (tau_limit g) 0)
      (nth j (g_q rs) 0 +
       joint_limit_torque (jlim_band g) (kp_jlim g) (nth j (q rs) 0)
         (nth j (q_min g) 0) (nth j (q_max g) 0) (nth j (q_sat g) 0)).
Proof.
  intros Hv Hx Hvz Hoz Hdz Hqq Hdq.
  assert (Hb : all_zero (base_torque orientation_error dof m rs sp g)).
  { assert (HF : forall dx dphi, all_zero dx -> all_zero dphi ->
              all_zero (task_space_torque dof rs g dx dphi)).
    { intros dx dphi H1 H2. unfold task_space_torque. apply all_zero_jt_mul.
      apply all_zero_app; unfold vsub; apply all_zero_vzip_both; try ring;
        apply all_zero_vscale; assumption. }
    assert (Hclamp : forall s e, all_zero e -> all_zero (clamp_step s e)).
    { intros s e He. unfold clamp_step. destruct (Rlt_dec _ _); [|exact He].
      apply all_zero_vscale. exact He. }
    destruct m; simpl.
    - unfold fullTaskSpaceControl. apply HF; [rewrite Hx; apply all_zero_vsub_self|exact Hdz].
    - unfold incrementalTaskSpaceControl. apply HF; apply Hclamp;
        [rewrite Hx; apply all_zero_vsub_self|exact Hdz].
    - unfold resolvedMotionRateControl. unfold vsub at 2. unfold vcwise.
      apply all_zero_vzip_both; [ring| |apply all_zero_vzip_r; [intros a b ->; ring|exact Hdq]].
      apply all_zero_vzip_r; [intros a b ->; ring|].
      apply all_zero_jt_mul, all_zero_app; [rewrite Hx; apply all_zero_vsub_self|exact Hdz].
    - unfold jointSpaceControl. unfold vsub at 1. unfold vcwise.
      apply all_zero_vzip_both; [ring| |apply all_zero_vzip_r; [intros a b ->; ring|exact Hdq]].
      apply all_zero_vzip_r; [intros a b ->; ring|].
      rewrite Hqq. apply all_zero_vsub_self. }
  split; [exact Hb|].
  intros j Hj. rewrite computeTorque_nth by assumption.
  rewrite (all_zero_nth _ j Hb), (all_zero_nth _ j Hdq). f_equal. ring.
Qed.

Lemma torque_at_rest_is_compensation_witness :
  valid_config 1 rs_rest sp_one gains_one /\
  all_zero (base_torque no_orientation_error 1 ResolvedMotionRate rs_rest sp_one gains_one).
Proof.
  assert (Hv : valid_config 1 rs_rest sp_one gains_one) by prove_valid.
  assert (Z3 : all_zero [0; 0; 0]) by (repeat constructor).
  split; [exact Hv|].
  exact (proj1 (torque_at_rest_is_compensation no_orientation_error 1 ResolvedMotionRate
    rs_rest sp_one gains_one Hv eq_refl Z3 Z3 Z3 eq_refl ltac:(repeat constructor))).
Defined.

Lemma clamp_shrinks lim x : 0 <= lim ->
  Rabs (clamp lim x) <= Rabs x /\ 0 <= x * clamp lim x /\ clamp lim (clamp lim x) = clamp lim x.
Proof.
  intros Hl. destruct (clamp_cases lim x Hl) as (C1 & C2 & C3).
  destruct (clamp_cases lim (clamp lim x) Hl) as (D1 & _ & _).
  assert (Hid : clamp lim (clamp lim x) = clamp lim x) by (apply D1, clamp_bounds, Hl).
  rewrite Hid. split; [|split; [|reflexivity]];
  (destruct (Rle_dec x lim); destruct (Rle_dec (- lim) x);
   [rewrite C1 by lra | rewrite C3 by lra | rewrite C2 by lra | lra]).
  - lra.
  - rewrite Rabs_Ropp, (Rabs_right lim), (Rabs_left x) by lra. lra.
  - rewrite (Rabs_right lim), (Rabs_right x) by lra. lra.
  - nra.
  - nra.
  - nra.
Qed.

Lemma nth_clamp_vec L t j :
  Forall (fun l => 0 <= l) L ->
  nth j (vzip clamp L t) 0 = 0 \/
  exists l, 0 <= l /\ nth j (vzip clamp L t) 0 = clamp l (nth j t 0).
Proof.
  intros HL. revert t j. induction HL as [|l L Hl HL IH]; intros [|a t] [|j]; simpl; auto.
  right. exists l. split; [exact Hl|reflexivity].
Qed.

Lemma clamp_vec_idem L t :
  Forall (fun l => 0 <= l) L -> vzip clamp L (vzip clamp L t) = vzip clamp L t.
Proof.
  intros HL. revert t. induction HL as [|l L Hl HL IH]; intros [|a t]; simpl; auto.
  rewrite IH. f_equal. apply clamp_shrinks. exact Hl.
Qed.

(** The limiting stage with nonnegative limits never amplifies a joint's
    torque nor flips its sign, and applying it twice is the same as once. *)
Theorem torque_limits_never_amplify g t j :
  Forall (fun l => 0 <= l) (tau_limit g) ->
  Rabs (nth j (applyTorqueLimits g t) 0) <= Rabs (nth j t 0) /\
  0 <= nth j t 0 * nth j (applyTorqueLimits g t) 0 /\
  applyTorqueLimits g (applyTorqueLimits g t) = applyTorqueLimits g t.
Proof.
  intros HL. unfold applyTorqueLimits.
  split; [|split; [|apply clamp_vec_idem; exact HL]];
    destruct (nth_clamp_vec (tau_limit g) t j HL) as [H0 | [l [Hl Hc]]].
  - rewrite H0, Rabs_R0. apply Rabs_pos.
  - rewrite Hc. apply clamp_shrinks. exact Hl.
  - rewrite H0. lra.
  - rewrite Hc. apply clamp_shrinks. exact Hl.
Qed.

Lemma torque_limits_never_amplify_witness :
  Rabs (nth 0 (applyTorqueLimits gains_one [-5]) 0) <= Rabs (nth 0 [-5] 0).
Proof.
  apply (torque_limits_never_amplify gains_one [-5] 0).
  cbn [tau_limit gains_one]. repeat constructor. lra.
Defined.



(* ------------------------------------------------------------------ *)
(** ** Further properties of the projectile estimator *)

(** ingest touches only its own identifier: an existing entry gets the
    sample appended and its time of last measurement updated, a new one
    starts with the single sample and is unconfirmed at every time. *)
Theorem ingest_appends id ts pos m :
  (forall k, k <> id -> ingest id ts pos m !! k = m !! k) /\
  (forall p0, m !! id = Some p0 ->
     ingest id ts pos m !! id = Some (mkProjectile (pid p0) (history p0 ++ [(ts, pos)]) ts)) /\
  (m !! id = None ->
     ingest id ts pos m !! id = Some (mkProjectile id [(ts, pos)] ts) /\
     forall timeout now, confirmed timeout now (mkProjectile id [(ts, pos)] ts) = false).
Proof.
  unfold ingest. split; [|split].
  - intros k Hk. destruct (m !! id); apply lookup_insert_ne; congruence.
  - intros p0 Hp. rewrite Hp. apply lookup_insert_eq.
  - intros Hn. rewrite Hn. split; [apply lookup_insert_eq|].
    intros timeout now. unfold confirmed. rewrite fit_short by (simpl; lia). reflexivity.
Qed.

Lemma ingest_appends_witness :
  ingest 7 0 [1; 2; 3] ∅ !! 7%Z = Some proj_single.
Proof.
  apply (proj1 (proj2 (proj2 (ingest_appends 7 0 [1; 2; 3] ∅)) (lookup_empty _))).
Defined.

(** tick keeps exactly the live entries, unchanged, and a second tick at
    the same time removes nothing more. *)
Theorem tick_live_entries timeout now m :
  (forall k p, tick timeout now m !! k = Some p <->
               m !! k = Some p /\ expired timeout now p = false) /\
  tick timeout now (tick timeout now m) = tick timeout now m.
Proof.
  assert (H : forall m' k p, tick timeout now m' !! k = Some p <->
                m' !! k = Some p /\ expired timeout now p = false).
  { intros m' k p. unfold tick. rewrite map_lookup_filter_Some. simpl. tauto. }
  split; [exact (H m)|].
  apply map_eq. intros k. apply option_eq. intros p.
  rewrite (H (tick timeout now m)), H. tauto.
Qed.

(* ------------------------------------------------------------------ *)
(** ** Further properties of the simulated launcher *)

Lemma getNext_fields draws launch_x launch_id g :
  sim_id (fst (getNextProjectile draws launch_x launch_id g)) = launch_id g /\
  count (snd (getNextProjectile draws launch_x launch_id g)) = (count g + 1)%Z /\
  gen_projectiles (snd (getNextProjectile draws launch_x launch_id g)) = gen_projectiles g.
Proof.
  unfold getNextProjectile. destruct (draws (rng g)) as [[[a b] c] d]. simpl.
  repeat split; reflexivity.
Qed.

Ltac split_next_at :=
  match goal with
  | |- context [getNextProjectile ?d ?l ?i ?g1] =>
      let Hid := fresh "Hid" in let Hcnt := fresh "Hcnt" in
      let Hmap := fresh "Hmap" in
      destruct (getNext_fields d l i g1) as (Hid & Hcnt & Hmap);
      destruct (getNextProjectile d l i g1) as [np g2];
      cbn [fst snd count gen_projectiles] in Hid, Hcnt, Hmap
  end.

(** update adds to the active map only the pending projectile, under its
    own identifier, and only once its launch time has been reached. *)
Theorem update_adds_only_due_pending draws launch_x launch_id dt g k p :
  gen_projectiles (update draws launch_x launch_id dt g) !! k = Some p ->
  gen_projectiles g !! k = Some p \/
  (p = pendingProjectile g /\ k = sim_id p /\ pendingProjectileExists g = true /\
   sim_t0 p <= sim_time g + dt).
Proof.
  unfold update.
  destruct (pendingProjectileExists g && Rleb (sim_t0 (pendingProjectile g))
              (sim_time g + dt)) eqn:Hpr.
  - apply andb_true_iff in Hpr as [He Hle].
    unfold Rleb in Hle. destruct (Rle_dec _ _) as [Hle'|]; [|discriminate].
    cbn [pendingProjectileExists]. split_next_at. cbn [gen_projectiles].
    rewrite Hmap. intros Hk.
    destruct (decide (k = sim_id (pendingProjectile g))) as [->|Hne].
    + rewrite lookup_insert_eq in Hk. injection Hk as <-. right. auto.
    + rewrite lookup_insert_ne in Hk by congruence. left. exact Hk.
  - cbn [pendingProjectileExists].
    destruct (pendingProjectileExists g).
    + cbn [gen_projectiles]. left. exact H.
    + split_next_at. cbn [gen_projectiles]. rewrite Hmap. left. exact H.
Qed.

Lemma update_adds_only_due_pending_witness :
  gen_projectiles (update draws_const 0 count 1 gen_due) !! 0%Z = Some sim_due /\
  (gen_projectiles gen_due !! 0%Z = Some sim_due \/
   (sim_due = pendingProjectile gen_due /\ 0%Z = sim_id sim_due /\
    pendingProjectileExists gen_due = true /\ sim_t0 sim_due <= sim_time gen_due + 1)).
Proof.
  assert (Hl : gen_projectiles (update draws_const 0 count 1 gen_due) !! 0%Z = Some sim_due).
  { unfold update, Rleb.
    cbn [pendingProjectileExists pendingProjectile sim_t0 sim_time gen_due sim_due andb].
    destruct (Rle_dec _ _) as [_|Hn]; [|exfalso; lra].
    cbn [pendingProjectileExists]. split_next_at. cbn [gen_projectiles].
    rewrite Hmap. cbn [gen_projectiles gen_due sim_id sim_due pendingProjectile].
    apply lookup_insert_eq. }
  split; [exact Hl|].
  exact (update_adds_only_due_pending draws_const 0 count 1 gen_due 0%Z sim_due Hl).
Defined.

(* ------------------------------------------------------------------ *)
(** ** Further properties of the interception state machine *)

(** The transitions of one state-machine evaluation: READY goes only to
    READY or TRACKING, RECOVERING only to READY or RECOVERING, TRACKING
    never to RECOVERING, INTERCEPTING never back to TRACKING; INTERCEPTING
    is entered only from TRACKING with an intercept time below the
    threshold, RECOVERING only once the intercept time has passed. *)
Theorem stateMachine_transitions cfg s :
  let s' := stateMachine cfg s in
  (mode s = READY -> mode s' = READY \/ mode s' = TRACKING) /\
  (mode s = RECOVERING -> mode s' = READY \/ mode s' = RECOVERING) /\
  (mode s = TRACKING -> mode s' <> RECOVERING) /\
  (mode s = INTERCEPTING -> mode s' <> TRACKING) /\
  (mode s <> INTERCEPTING -> mode s' = INTERCEPTING ->
     mode s = TRACKING /\
     exists p t, select (mc_timeout cfg) (mc_selector cfg) (now s) (projectiles s) = Some p /\
       eta cfg s p = Some t /\ t - now s < intercept_threshold cfg) /\
  (mode s' = RECOVERING ->
     (mode s = INTERCEPTING /\ intercept_time s <= now s) \/ mode s = RECOVERING).
Proof.
  intros s'. subst s'. unfold stateMachine.
  destruct (select (mc_timeout cfg) (mc_selector cfg) (now s) (projectiles s))
    as [p|] eqn:Hsel;
  destruct (mode s) eqn:Hm;
  try (destruct (eta cfg s p) as [t|] eqn:Het);
  try (destruct (Rlt_dec (t - now s) (intercept_threshold cfg)));
  try (destruct (Rle_dec (intercept_time s) (now s)));
  try (destruct (target s) as [id|]; [destruct (projectiles s !! id) as [pp|];
         [destruct (confirmed (mc_timeout cfg) (now s) pp &&
             (if eta cfg s pp then true else false))|]|]);
  try (destruct (Rle_dec (joint_dist2 (q (robot s)) (ready_pos_joint cfg))
                 (ready_tol cfg * ready_tol cfg)));
  cbn [mode set_mode go_ready];
  repeat split; intros; try rewrite Hm in *;
  try discriminate; try congruence; auto;
  try (exists p, t; auto).
Qed.

(** With no selectable projectile, an unpaused controller in READY stays in
    READY across any number of control cycles, with no target, holding the
    ready joint configuration under joint-space control. *)
Theorem ready_idle_stays_ready orientation_error dof cfg s n :
  paused s = false -> mode s = READY ->
  select (mc_timeout cfg) (mc_selector cfg) (now s) (projectiles s) = None ->
  let s' := Nat.iter (S n) (control_step orientation_error dof cfg) s in
  mode s' = READY /\ target s' = None /\ ctrl s' = JointSpace /\
  q_d (setpoint s') = ready_pos_joint cfg /\
  now s' = now s /\ projectiles s' = projectiles s.
Proof.
  intros Hp Hm Hsel s'. subst s'.
  assert (Hstep : forall x, paused x = false -> mode x = READY ->
            now x = now s -> projectiles x = projectiles s ->
            let y := control_step orientation_error dof cfg x in
            mode y = READY /\ target y = None /\ ctrl y = JointSpace /\
            q_d (setpoint y) = ready_pos_joint cfg /\ paused y = false /\
            now y = now s /\ projectiles y = projectiles s).
  { intros x Hpx Hmx Hnx Hqx y. subst y. unfold control_step. rewrite Hpx.
    unfold stateMachine. rewrite Hmx, Hnx, Hqx, Hsel.
    cbn [with_torque go_ready set_mode ready_setpoint mode target ctrl setpoint
         q_d paused now projectiles].
    repeat split; assumption. }
  assert (Hinv : forall k, let x := Nat.iter k (control_step orientation_error dof cfg) s in
            paused x = false /\ mode x = READY /\ now x = now s /\ projectiles x = projectiles s).
  { induction k as [|k IH]; [repeat split; assumption|].
    destruct IH as (H1 & H2 & H3 & H4).
    destruct (Hstep _ H1 H2 H3 H4) as (G1 & _ & _ & _ & G5 & G6 & G7).
    repeat split; assumption. }
  destruct (Hinv n) as (H1 & H2 & H3 & H4).
  destruct (Hstep _ H1 H2 H3 H4) as (G1 & G2 & G3 & G4 & _ & G6 & G7).
  repeat split; assumption.
Qed.

Lemma ready_idle_stays_ready_witness :
  mode (Nat.iter 3 (control_step no_orientation_error 1 cfg_one) shared_one) = READY.
Proof.
  apply (ready_idle_stays_ready no_orientation_error 1 cfg_one shared_one 2);
    [reflexivity|reflexivity|].
  unfold select. cbn [projectiles shared_one]. rewrite map_to_list_empty. reflexivity.
Defined.





